(** * Compartment models: a shallow embedding of [compartment.py]

    The module simulates SIR/SEIR dynamics with an ODE integrator that is
    an external collaborator ([jax.experimental.ode.build_odeint]).  The
    embedding keeps the integrator abstract, models arrays as (nested)
    lists, Python exceptions as an error monad, and records every call
    made to the integrator in a log, so that statements about how often
    and on which time grids the integrator is entered can be stated. *)

From stdpp Require Import base list.
From Stdlib Require Import ZArith Reals Lra.

Set Default Proof Using "Type".

(** ** Exceptions and results *)

(** The exceptions the module can surface.  [ShapeError] stands for the
    errors array primitives raise on incompatible shapes ([reshape],
    [broadcast_to], [vmap], [scan]); [IndexError] for an index outside a
    sequence; [NotImplementedError] for the abstract [dx_dt];
    [IntegrationError] is left to the integrator. *)
Inductive exn : Type :=
  | ShapeError
  | IndexError
  | NotImplementedError
  | IntegrationError.

Inductive result (X : Type) : Type :=
  | Ok (x : X)
  | Err (e : exn).
Arguments Ok {X} x.
Arguments Err {X} e.

Class Monad (m : Type → Type) : Type := {
  ret : ∀ {X}, X → m X;
  bind : ∀ {X Y}, m X → (X → m Y) → m Y
}.

Notation "x <- e ;; k" := (bind e (fun x => k))
  (at level 20, e at level 99, k at level 200, only parsing).
Notation "' p <- e ;; k" := (bind e (fun x => match x with p => k end))
  (at level 20, p pattern, e at level 99, k at level 200, only parsing).

#[global] Instance result_monad : Monad result := {
  ret := @Ok;
  bind := λ X Y r k, match r with Ok x => k x | Err e => Err e end
}.

Fixpoint mapM {m : Type → Type} `{Monad m} {X Y : Type}
    (f : X → m Y) (l : list X) : m (list Y) :=
  match l with
  | [] => ret []
  | x :: l' => y <- f x ;; ys <- mapM f l' ;; ret (y :: ys)
  end.

Definition rmap {X Y : Type} (f : X → Y) (r : result X) : result Y :=
  match r with Ok x => Ok (f x) | Err e => Err e end.

(** ** Array primitives on lists *)

(** [l[i]] for a non-negative index. *)
Definition getitem {X : Type} (l : list X) (i : nat) : result X :=
  match l !! i with
  | Some x => Ok x
  | None => Err IndexError
  end.

(** [l[-1]]. *)
Definition getlast {X : Type} (l : list X) : result X :=
  match last l with
  | Some x => Ok x
  | None => Err IndexError
  end.

(** Row-major split of a flat buffer into [n] consecutive blocks of
    [sz] entries. *)
Definition chunks {X : Type} (n sz : nat) (x : list X) : list (list X) :=
  (λ i, take sz (drop (i * sz) x)) <$> seq 0 n.

(** [x.reshape(n, -1)]: the free dimension is [len(x) / n]; it cannot be
    inferred for [n = 0] or when [n] does not divide [len(x)]. *)
Definition reshape_rows {X : Type} (n : nat) (x : list X)
    : result (list (list X)) :=
  if (n =? 0)%nat then Err ShapeError
  else if (length x mod n =? 0)%nat then Ok (chunks n (length x / n) x)
  else Err ShapeError.

(** [x.reshape(n, b, d)] of a buffer (given in row-major order). *)
Definition reshape3 {X : Type} (n b d : nat) (x : list X)
    : result (list (list (list X))) :=
  if (length x =? n * b * d)%nat
  then Ok (chunks b d <$> chunks n (b * d) x)
  else Err ShapeError.

(** [x.swapaxes(0, 1)] of an array of shape [(n, b, ...)], given as [n]
    blocks of [b] entries; the result has [b] blocks of [n] entries. *)
Definition swapaxes01 {X : Type} (b : nat) (x : list (list X))
    : result (list (list X)) :=
  mapM (λ i, mapM (λ blk, getitem blk i) x) (seq 0 b).

(** Shape of a two-dimensional array given by its rows.  An array with no
    rows is taken to have no columns. *)
Definition shape2 {X : Type} (x : list (list X)) : nat * nat :=
  (length x, match x with [] => 0 | r :: _ => length r end).

(** [np.broadcast_to] along one axis: an axis of the requested size is
    kept, an axis of size one is repeated, anything else is rejected. *)
Definition broadcast_axis {X : Type} (n : nat) (l : list X)
    : result (list X) :=
  if (length l =? n)%nat then Ok l
  else match l with
       | [v] => Ok (replicate n v)
       | _ => Err ShapeError
       end.

Definition compatible (k n : nat) : bool := (k =? n)%nat || (k =? 1)%nat.

(** ** Collaborators *)

(** Conversion of an integer literal to the array dtype ([float32]). *)
Class Numeric (A : Type) : Type := { of_nat : nat → A }.

(** [build_odeint(f, rtol=.., atol=.., mxstep=..)] with the settings fixed
    at model construction: from a derivative [f(x, t, *args)], an initial
    state, a grid of query times and the extra arguments it returns one
    state per query time, or fails.  It is polymorphic in the extra
    arguments, which it only hands on to [f]. *)
Class Integrator (A : Type) : Type := {
  build_odeint : ∀ P : Type,
    (list A → A → P → result (list A)) →
    list A → list A → P → result (list (list A))
}.
Arguments build_odeint {A _ P} f x0 t args.

(** The capability a concrete model supplies. *)
Class DxDt (A : Type) : Type :=
  dx_dt : list A → A → list A → result (list A).

(** ** Calls to the integrator *)

(** One entry per call of the integrator: the (flat) initial state and the
    time grid it was given. *)
Record call (A : Type) : Type := Call { call_x0 : list A; call_t : list A }.
Arguments Call {A} call_x0 call_t.
Arguments call_x0 {A} c.
Arguments call_t {A} c.

(** A computation that may raise and that logs its integrator calls. *)
Record M (A X : Type) : Type := MkM { calls : list (call A); outcome : result X }.
Arguments MkM {A X} calls outcome.
Arguments calls {A X} m.
Arguments outcome {A X} m.

#[global] Instance M_monad (A : Type) : Monad (M A) := {
  ret := λ X x, MkM [] (Ok x);
  bind := λ X Y m k,
    match outcome m with
    | Ok x => MkM (calls m ++ calls (k x)) (outcome (k x))
    | Err e => MkM (calls m) (Err e)
    end
}.

Definition lift {A X : Type} (r : result X) : M A X := MkM [] r.

Definition integrate {A : Type} `{Integrator A} {P : Type}
    (f : list A → A → P → result (list A))
    (x0 t : list A) (args : P) : M A (list (list A)) :=
  MkM [Call x0 t] (build_odeint f x0 t args).


(** ** [jax.lax.scan] *)

(** [scan(f, init, xs, length)]: [xs] is a tuple of arrays whose leading
    axes all have size [length]; step [k] feeds [f] the carry and the
    tuple of the [k]-th entries, and the per-step outputs are stacked. *)
Fixpoint scan_loop {A C B Y : Type} (f : C → list B → M A (C * Y))
    (xs : list (list B)) (n k : nat) (carry : C) : M A (C * list Y) :=
  match n with
  | 0 => ret (carry, [])
  | S n' =>
      x <- lift (mapM (λ a, getitem a k) xs) ;;
      ' (carry', y) <- f carry x ;;
      ' (final, ys) <- scan_loop f xs n' (S k) carry' ;;
      ret (final, y :: ys)
  end.

Definition scan {A C B Y : Type} (f : C → list B → M A (C * Y))
    (init : C) (xs : list (list B)) (len : Z) : M A (C * list Y) :=
  if (len <? 0)%Z then lift (Err ShapeError)
  else if forallb (λ a, (Z.of_nat (length a) =? len)%Z) xs
  then scan_loop f xs (Z.to_nat len) 0 init
  else lift (Err ShapeError).

(** ** Parameter tuples *)

(** An entry of [theta] in [run]: a scalar or a vector. *)
Inductive param (A : Type) : Type :=
  | Scalar (a : A)
  | Vec (l : list A).
Arguments Scalar {A} a.
Arguments Vec {A} l.

Definition ndim {A : Type} (a : param A) : nat :=
  match a with Scalar _ => 0 | Vec _ => 1 end.

(** An entry of [theta] in [run_batch]: a vector (shape [(batch_sz,)]) or
    a matrix (shape [(batch_sz, T-1)]).  A matrix is given by its rows
    together with its number of columns, which the rows of a matrix
    without rows would not determine. *)
Inductive bparam (A : Type) : Type :=
  | BVec (l : list A)
  | BMat (ncols : nat) (m : list (list A)).
Arguments BVec {A} l.
Arguments BMat {A} ncols m.

Section Engine.
(** Scalars (float32 values in the source) are kept abstract: the engine
    only moves them around, except for the time grids it builds. *)
Context {A : Type}.

(** *** The vectorized derivative *)

(** [jax.vmap(f, in_axes=(0, None) + (0,) * len(args))(x, t, *args)]:
    every mapped argument must have the same leading size; row [i] of
    the result is [f] on row [i] of [x] and entry [i] of every [args]
    sequence, with [t] shared. *)
Definition vmap (f : list A → A → list A → result (list A))
    (x : list (list A)) (t : A) (args : list (list A))
    : result (list (list A)) :=
  if forallb (λ a, (length a =? length x)%nat) args
  then mapM (λ i, xi <- getitem x i ;;
                  ai <- mapM (λ a, getitem a i) args ;;
                  f xi t ai) (seq 0 (length x))
  else Err ShapeError.

Definition dx_dt_batch (dx_dt : list A → A → list A → result (list A))
    (x : list A) (t : A) (args : list (list A)) : result (list A) :=
  a0 <- getitem args 0 ;;
  let batch_sz := length a0 in
  x <- reshape_rows batch_sz x ;;
  d <- vmap dx_dt x t args ;;
  ret (concat d).

(** *** The batch integrator *)

Context `{Numeric A} `{Integrator A}.

Definition build_odeint_batch
    (dx_dt : list A → A → list A → result (list A))
    : list (list A) → list A → list (list A) →
      M A (list (list (list A))) :=
  let ode := integrate (dx_dt_batch dx_dt) in
  λ x0 t args,
    let '(batch_sz, d) := shape2 x0 in
    x <- ode (concat x0) t args ;;
    x <- lift (reshape3 (length t) batch_sz d (concat x)) ;;
    lift (swapaxes01 batch_sz x).

(** *** CompartmentModel *)

Context `{DxDt A}.

(** The two integrators built in [__init__]. *)
Definition odeint : list A → list A → list A → M A (list (list A)) :=
  integrate dx_dt.
Definition batch_odeint := build_odeint_batch dx_dt.

(** [np.arange(T, dtype='float32')] *)
Definition arange (T : Z) : list A := of_nat <$> seq 0 (Z.to_nat T).

(** [np.array([0.0, 1.0])] *)
Definition t_one_step : list A := [of_nat 0; of_nat 1].

(** A scalar entry passed on as a derivative parameter; the derivative
    takes scalar parameters only. *)
Definition item (a : param A) : result A :=
  match a with Scalar v => Ok v | Vec _ => Err ShapeError end.

Definition _run_static (T : Z) (x0 : list A) (theta : list (param A))
    : M A (list (list A)) :=
  let t := arange T in
  args <- lift (mapM item theta) ;;
  odeint x0 t args.

(** [np.broadcast_to(a, (n,))] *)
Definition broadcast_to (a : param A) (n : Z) : result (list A) :=
  if (n <? 0)%Z then Err ShapeError
  else match a with
       | Scalar v => Ok (replicate (Z.to_nat n) v)
       | Vec l => broadcast_axis (Z.to_nat n) l
       end.

Definition _run_time_varying (T : Z) (x0 : list A)
    (theta : list (param A)) : M A (list (list A)) :=
  theta <- lift (mapM (λ a, broadcast_to a (T - 1)) theta) ;;
  let advance (x0 : list A) (theta : list A) :=
    r <- odeint x0 t_one_step theta ;;
    x1 <- lift (getitem r 1) ;;
    ret (x1, x1) in
  ' (_, X) <- scan advance x0 theta (T - 1) ;;
  ret (x0 :: X).

Definition run (T : Z) (x0 : list A) (theta : list (param A))
    : M A (list (list A)) :=
  let is_scalar := (λ a, (ndim a =? 0)%nat) <$> theta in
  if forallb (λ b, b) is_scalar
  then _run_static T x0 theta
  else _run_time_varying T x0 theta.

(** [np.broadcast_to(a.T, (T-1, batch_sz))]; transposing a vector leaves
    it unchanged, transposing a matrix of shape [(r, c)] gives its [c]
    columns. *)
Definition expand_and_transpose (T : Z) (batch_sz : nat) (a : bparam A)
    : result (list (list A)) :=
  if (T - 1 <? 0)%Z then Err ShapeError
  else match a with
       | BVec l =>
           row <- broadcast_axis batch_sz l ;;
           ret (replicate (Z.to_nat (T - 1)) row)
       | BMat c m =>
           let r := length m in
           aT <- swapaxes01 c m ;;
           if compatible c (Z.to_nat (T - 1)) && compatible r batch_sz
           then rows <- mapM (broadcast_axis batch_sz) aT ;;
                broadcast_axis (Z.to_nat (T - 1)) rows
           else Err ShapeError
       end.

Definition run_batch (T : Z) (x0 : list (list A))
    (theta : list (bparam A)) : M A (list (list (list A))) :=
  let '(batch_sz, d) := shape2 x0 in
  theta <- lift (mapM (expand_and_transpose T batch_sz) theta) ;;
  let advance (x0 : list (list A)) (theta : list (list A)) :=
    r <- batch_odeint x0 t_one_step theta ;;
    x1 <- lift (mapM getlast r) ;;
    ret (x1, x1) in
  ' (_, X) <- scan advance x0 theta (T - 1) ;;
  X <- lift (swapaxes01 batch_sz X) ;;
  ret (zip_with app ((λ r, [r]) <$> x0) X).

End Engine.

(** The abstract base class leaves [dx_dt] unimplemented. *)
Definition CompartmentModel_dx_dt {A : Type} : DxDt A :=
  λ _ _ _, Err NotImplementedError.

(** ** Concrete models, over the reals *)

Module SIRModel.
Open Scope R_scope.

Definition dx_dt : DxDt R := λ x t args,
  match x, args with
  | [S_; I_; R_; C_], [beta; gamma] =>
      let N_ := S_ + I_ + R_ in
      let dS_dt := - beta * S_ * I_ / N_ in
      let dI_dt := beta * S_ * I_ / N_ - gamma * I_ in
      let dR_dt := gamma * I_ in
      let dC_dt := beta * S_ * I_ / N_ in
      Ok [dS_dt; dI_dt; dR_dt; dC_dt]
  | _, _ => Err ShapeError
  end.

Definition R0 (theta : list R) : result R :=
  match theta with
  | [beta; gamma] => Ok (beta / gamma)
  | _ => Err ShapeError
  end.

Definition growth_rate (theta : list R) : result R :=
  match theta with
  | [beta; gamma] => Ok (beta - gamma)
  | _ => Err ShapeError
  end.

Definition seed (N_ I_ : R) : list R := [N_ - I_; I_; 0; I_].
End SIRModel.

Module SEIRModel.
Open Scope R_scope.

Definition dx_dt : DxDt R := λ x t args,
  match x, args with
  | [S_; E_; I_; R_; C_], [beta; sigma; gamma] =>
      let N_ := S_ + E_ + I_ + R_ in
      let dS_dt := - beta * S_ * I_ / N_ in
      let dE_dt := beta * S_ * I_ / N_ - sigma * E_ in
      let dI_dt := sigma * E_ - gamma * I_ in
      let dR_dt := gamma * I_ in
      let dC_dt := sigma * E_ in
      Ok [dS_dt; dE_dt; dI_dt; dR_dt; dC_dt]
  | _, _ => Err ShapeError
  end.

Definition R0 (theta : list R) : result R :=
  match theta with
  | [beta; sigma; gamma] => Ok (beta / gamma)
  | _ => Err ShapeError
  end.

Definition growth_rate (theta : list R) : result R :=
  match theta with
  | [beta; sigma; gamma] =>
      Ok ((- (sigma + gamma) + sqrt ((sigma - gamma) ^ 2 + 4 * sigma * beta)) / 2)
  | _ => Err ShapeError
  end.

Definition seed (N_ I_ E_ : R) : list R := [N_ - E_ - I_; E_; I_; 0; I_].
End SEIRModel.

(** ** Reference descriptions *)

(** The descriptions below are written from the specification text, to be
    compared with the functions above. *)

Section Reference.
Context {A : Type} `{Numeric A} `{Integrator A} `{DxDt A}.

(** Evaluating [f] on each instance separately, with that instance's own
    parameter scalars: the first instance takes the first entry of every
    parameter sequence, the remaining instances the remaining entries. *)
Fixpoint per_instance (f : list A → A → list A → result (list A))
    (X : list (list A)) (t : A) (args : list (list A))
    : result (list (list A)) :=
  match X with
  | [] => Ok []
  | x :: X' =>
      d <- f x t (omap head args) ;;
      ds <- per_instance f X' t (drop 1 <$> args) ;;
      ret (d :: ds)
  end.

(** Chaining integrations by hand: each step starts from the state the
    previous one ended in, and every end state is recorded. *)
Fixpoint chain {St P : Type} (step : St → P → M A St) (x : St)
    (slices : list P) : M A (list St) :=
  match slices with
  | [] => ret []
  | th :: rest =>
      x1 <- step x th ;;
      X <- chain step x1 rest ;;
      ret (x1 :: X)
  end.

(** One unit step of a single instance: integrate over [[0, 1]] and keep
    the state at the end. *)
Definition unit_step (x : list A) (th : list A) : M A (list A) :=
  r <- odeint x [of_nat 0; of_nat 1] th ;;
  lift (getitem r 1).

(** One unit step of a whole batch. *)
Definition batch_unit_step (X : list (list A)) (th : list (list A))
    : M A (list (list A)) :=
  r <- batch_odeint X [of_nat 0; of_nat 1] th ;;
  lift (mapM getlast r).

(** The [k]-th slice of a tuple of per-step sequences. *)
Definition kth_slice {X : Type} (seqs : list (list X)) (k : nat) : list X :=
  omap (λ l, l !! k) seqs.

(** An entry of [theta] as documented for [run] with horizon [T]: a
    scalar or a vector of length [T - 1]. *)
Definition valid_entry (T : Z) (a : param A) : Prop :=
  match a with
  | Scalar _ => True
  | Vec l => Z.of_nat (length l) = (T - 1)%Z
  end.

(** The per-step values an entry stands for: a scalar is constant over
    all [T - 1] steps. *)
Definition per_step (T : Z) (a : param A) : list A :=
  match a with
  | Scalar v => replicate (Z.to_nat (T - 1)) v
  | Vec l => l
  end.

(** The trajectory [[x0]] followed by the states recorded by [T - 1]
    chained unit steps, step [k] using the [k]-th slice of [theta]. *)
Definition manual_chain (T : Z) (x0 : list A) (theta : list (param A))
    : M A (list (list A)) :=
  X <- chain unit_step x0
         (kth_slice (per_step T <$> theta) <$> seq 0 (Z.to_nat (T - 1))) ;;
  ret (x0 :: X).

(** An entry of [theta] as documented for [run_batch]: shape
    [(batch_sz,)] or [(batch_sz, T - 1)]. *)
Definition valid_batch_entry (T : Z) (batch_sz : nat) (a : bparam A)
    : Prop :=
  match a with
  | BVec l => length l = batch_sz
  | BMat c m =>
      length m = batch_sz ∧ Z.of_nat c = (T - 1)%Z ∧
      Forall (λ row, length row = c) m
  end.

(** The parameters of step [k], one scalar per batch member. *)
Definition batch_slice (k : nat) (a : bparam A) : list A :=
  match a with
  | BVec l => l
  | BMat _ m => kth_slice m k
  end.

(** The rows [expand_and_transpose] hands to the fold: row [k] holds the
    parameters of step [k], one scalar per batch member. *)
Definition expanded (T : Z) (a : bparam A) : list (list A) :=
  (λ k, batch_slice k a) <$> seq 0 (Z.to_nat (T - 1)).

(** Batch member [i] of the output: its own initial state followed by
    its own entry of every folded batch state. *)
Definition member_trajectory (i : nat) (x0 : list (list A))
    (states : list (list (list A))) : result (list (list A)) :=
  mapM (λ B, getitem B i) (x0 :: states).

Definition manual_batch_chain (T : Z) (x0 : list (list A))
    (theta : list (bparam A)) : M A (list (list (list A))) :=
  states <- chain batch_unit_step x0
              ((λ k, batch_slice k <$> theta) <$> seq 0 (Z.to_nat (T - 1))) ;;
  lift (mapM (λ i, member_trajectory i x0 states) (seq 0 (length x0))).



(** Mixed tuples: some entry is a scalar and some entry is not. *)
Definition mixed (theta : list (param A)) : Prop :=
  Exists (λ a, ndim a = 0) theta ∧ Exists (λ a, ndim a ≠ 0) theta.

(** A constant per-instance entry written as the time-varying entry that
    repeats each instance's value at every step. *)
Definition as_matrix (T : Z) (a : bparam A) : bparam A :=
  match a with
  | BVec l =>
      BMat (Z.to_nat (T - 1)) (replicate (Z.to_nat (T - 1)) <$> l)
  | BMat c m => BMat c m
  end.

(** Entry [i] of a flat buffer of consecutive blocks of [d] entries. *)
Definition block {X : Type} (d i : nat) (flat : list X) : list X :=
  take d (drop (i * d) flat).

End Reference.

(** ** A concrete instance of the collaborators *)

(** Integer scalars and the explicit Euler method with one step per grid
    interval, to run the engine on sample inputs. *)
Module Euler.
Open Scope Z_scope.

#[export] Instance numeric : Numeric Z := {| of_nat := Z.of_nat |}.

Fixpoint euler_from {P : Type} (f : list Z → Z → P → result (list Z))
    (x : list Z) (t0 : Z) (ts : list Z) (args : P)
    : result (list (list Z)) :=
  match ts with
  | [] => Ok []
  | t1 :: ts' =>
      d <- f x t0 args ;;
      let x1 := zip_with (λ xi di, xi + (t1 - t0) * di) x d in
      rest <- euler_from f x1 t1 ts' args ;;
      ret (x1 :: rest)
  end.

Definition euler {P : Type} (f : list Z → Z → P → result (list Z))
    (x0 : list Z) (t : list Z) (args : P) : result (list (list Z)) :=
  match t with
  | [] => Ok []
  | t0 :: ts => rest <- euler_from f x0 t0 ts args ;; ret (x0 :: rest)
  end.

#[export] Instance integrator : Integrator Z := {| build_odeint := @euler |}.

(** Susceptible and infected counts with mass-action infection and
    recovery. *)
#[export] Instance si_dx_dt : DxDt Z := λ x t args,
  match x, args with
  | [s; i], [beta; gamma] => Ok [- beta * s * i; beta * s * i - gamma * i]
  | _, _ => Err ShapeError
  end.

(** Every compartment decays at the sum of the parameters; defined for
    states and parameter tuples of any length. *)
Definition decay_dx_dt : DxDt Z := λ x t args,
  Ok ((λ xi, - foldr Z.add 0 args * xi) <$> x).

(** A parameterless derivative that depends on time only. *)
Definition clock_dx_dt : DxDt Z := λ x t args, Ok ((λ _, t) <$> x).
End Euler.

(** * Properties *)

(** ** The monads *)

Lemma mapM_fmap {m : Type → Type} `{Monad m} {X Y Z : Type}
    (g : X → Y) (f : Y → m Z) (l : list X) :
  mapM f (g <$> l) = mapM (f ∘ g) l.
Proof. induction l as [|x l IH]; csimpl; [done|]. by rewrite IH. Qed.

Lemma mapM_ext {m : Type → Type} `{Monad m} {X Y : Type}
    (f g : X → m Y) (l : list X) :
  (∀ x, x ∈ l → f x = g x) → mapM f l = mapM g l.
Proof.
  induction l as [|x l IH]; intros Hfg; simpl; [done|].
  rewrite Hfg by left. rewrite IH; [done|].
  intros y Hy. apply Hfg. by right.
Qed.

Lemma mapM_Ok {X Y : Type} (g : X → Y) (l : list X) :
  mapM (λ x, Ok (g x)) l = Ok (g <$> l).
Proof. induction l as [|x l IH]; simpl; [done|]. by rewrite IH. Qed.

Lemma mapM_seq_S {m : Type → Type} `{Monad m} {Y : Type}
    (f : nat → m Y) (j n : nat) :
  mapM f (seq (S j) n) = mapM (f ∘ S) (seq j n).
Proof. by rewrite <- fmap_S_seq, mapM_fmap. Qed.

Lemma mapM_length {X Y : Type} (f : X → result Y) (l : list X) ys :
  mapM f l = Ok ys → length ys = length l.
Proof.
  revert ys. induction l as [|x l IH]; intros ys; simpl.
  - by intros [= <-].
  - destruct (f x); [|done]. destruct (mapM f l) eqn:E; [|done].
    intros [= <-]. simpl. f_equal. by apply IH.
Qed.


Lemma getitem_Ok {X : Type} (l : list X) i x :
  getitem l i = Ok x ↔ l !! i = Some x.
Proof. unfold getitem. destruct (l !! i); split; congruence. Qed.

Lemma getitem_lookup {X : Type} (l : list X) i x :
  l !! i = Some x → getitem l i = Ok x.
Proof. apply getitem_Ok. Qed.

(** ** Reshaping *)

Lemma chunks_S {X : Type} (n sz : nat) (x : list X) :
  chunks (S n) sz x = take sz x :: chunks n sz (drop sz x).
Proof.
  unfold chunks. simpl. f_equal.
  rewrite <- fmap_S_seq, <- list_fmap_compose.
  apply list_fmap_ext. intros _ i _. simpl.
  by rewrite drop_drop.
Qed.

Lemma chunks_concat {X : Type} (d : nat) (rows : list (list X)) :
  Forall (λ r, length r = d) rows →
  chunks (length rows) d (concat rows) = rows.
Proof.
  induction 1 as [|r rows Hr _ IH]; [done|].
  simpl length. rewrite chunks_S. simpl concat.
  rewrite take_app_length' by done. rewrite drop_app_length' by done.
  by rewrite IH.
Qed.

Lemma length_concat_rows {X : Type} (d : nat) (rows : list (list X)) :
  Forall (λ r, length r = d) rows →
  length (concat rows) = length rows * d.
Proof.
  induction 1 as [|r rows Hr _ IH]; [done|].
  simpl. rewrite length_app. lia.
Qed.

Lemma reshape_rows_concat {X : Type} (d : nat) (rows : list (list X)) :
  0 < length rows →
  Forall (λ r, length r = d) rows →
  reshape_rows (length rows) (concat rows) = Ok rows.
Proof.
  intros Hpos Hrows. unfold reshape_rows.
  rewrite (length_concat_rows d), (Nat.mul_comm (length rows) d) by done.
  destruct (Nat.eqb_spec (length rows) 0); [lia|].
  rewrite Nat.Div0.mod_mul, Nat.eqb_refl, Nat.div_mul by lia.
  by rewrite chunks_concat.
Qed.

(** ** The vectorized derivative *)

Section VectorizedDerivative.
Context {A : Type}.
Implicit Types (f : list A → A → list A → result (list A)).
Implicit Types (X : list (list A)) (args : list (list A)).

Lemma mapM_getitem_0 args n :
  Forall (λ a, length a = S n) args →
  mapM (λ a, getitem a 0) args = Ok (omap head args).
Proof.
  induction 1 as [|a args Ha _ IH]; [done|].
  simpl. destruct a as [|v a]; [done|]. simpl. by rewrite IH.
Qed.

Lemma vmap_loop_per_instance f X t args :
  Forall (λ a, length a = length X) args →
  mapM (λ i, xi <- getitem X i ;;
             ai <- mapM (λ a, getitem a i) args ;;
             f xi t ai) (seq 0 (length X))
  = per_instance f X t args.
Proof.
  revert args. induction X as [|x X IH]; intros args Hargs; [done|].
  simpl length. simpl seq. simpl mapM at 1.
  rewrite (mapM_getitem_0 _ (length X)) by done. simpl.
  destruct (f x t (omap head args)); [|done].
  rewrite mapM_seq_S. rewrite <- (IH (drop 1 <$> args)).
  - erewrite mapM_ext; [done|]. intros i _. simpl.
    unfold getitem at 1. simpl. fold (getitem X i).
    destruct (getitem X i); [|done]. simpl.
    rewrite mapM_fmap. erewrite mapM_ext; [done|].
    intros a _. simpl. unfold getitem. by rewrite lookup_drop.
  - apply Forall_fmap. eapply Forall_impl; [done|].
    intros a Ha. simpl in *. rewrite length_drop. lia.
Qed.

Lemma vmap_per_instance f X t args :
  Forall (λ a, length a = length X) args →
  vmap f X t args = per_instance f X t args.
Proof.
  intros Hargs. unfold vmap.
  rewrite (proj2 (forallb_forall _ _)).
  - by apply vmap_loop_per_instance.
  - intros a Ha. apply Nat.eqb_eq.
    rewrite Forall_forall in Hargs. apply Hargs.
    by apply list_elem_of_In.
Qed.

(** C2.  For a batch [X] of [batch_size >= 1] states of length [d] and a
    non-empty tuple of parameter sequences of length [batch_size], the
    vectorized derivative applied to the flattened batch is the
    flattened stack of the per-instance derivatives, each instance being
    evaluated with its own parameter scalars and the shared time; this
    includes the case where an instance's derivative raises. *)
Theorem dx_dt_batch_per_instance f X t args batch_size d :
  0 < batch_size →
  length X = batch_size →
  Forall (λ r, length r = d) X →
  args ≠ [] →
  Forall (λ a, length a = batch_size) args →
  dx_dt_batch f (concat X) t args
  = rmap (λ rows, concat rows) (per_instance f X t args).
Proof.
  intros Hpos HX Hrows Hne Hargs. unfold dx_dt_batch.
  destruct args as [|a0 args]; [done|]. simpl getitem. simpl.
  assert (length a0 = length X) as -> by (inversion Hargs; congruence).
  rewrite (reshape_rows_concat d) by (done || lia). simpl.
  rewrite vmap_per_instance by (by rewrite HX).
  by destruct (per_instance f X t (a0 :: args)).
Qed.
End VectorizedDerivative.

(** ** Laws of the logging monad *)

Section MonadLaws.
Context {A : Type}.

Lemma M_ret_bind {X Y : Type} (x : X) (k : X → M A Y) :
  bind (ret x) k = k x.
Proof. simpl. by destruct (k x). Qed.

Lemma M_lift_Ok_bind {X Y : Type} (x : X) (k : X → M A Y) :
  bind (lift (Ok x)) k = k x.
Proof. apply M_ret_bind. Qed.

Lemma M_lift_Err_bind {X Y : Type} (e : exn) (k : X → M A Y) :
  bind (lift (Err e)) k = lift (Err e).
Proof. done. Qed.

Lemma M_bind_assoc {X Y Z : Type} (m : M A X) (f : X → M A Y)
    (g : Y → M A Z) :
  bind (bind m f) g = bind m (λ x, bind (f x) g).
Proof.
  destruct m as [l [x|e]]; simpl; [|done].
  destruct (f x) as [l1 [y|e]]; simpl; [|done].
  destruct (g y) as [l2 r]; simpl. by rewrite app_assoc.
Qed.

Lemma M_bind_ext {X Y : Type} (m : M A X) (f g : X → M A Y) :
  (∀ x, f x = g x) → bind m f = bind m g.
Proof. intros Hfg. destruct m as [l [x|e]]; simpl; [|done]. by rewrite Hfg. Qed.

Lemma M_bind_ret {X : Type} (m : M A X) : bind m ret = m.
Proof. destruct m as [l [x|e]]; simpl; [|done]. by rewrite app_nil_r. Qed.

Lemma calls_bind {X Y : Type} (m : M A X) (k : X → M A Y) :
  calls (bind m k) =
  calls m ++ match outcome m with Ok x => calls (k x) | Err _ => [] end.
Proof. destruct m as [l [x|e]]; simpl; [done|]. by rewrite app_nil_r. Qed.

Lemma outcome_bind {X Y : Type} (m : M A X) (k : X → M A Y) :
  outcome (bind m k) =
  match outcome m with Ok x => outcome (k x) | Err e => Err e end.
Proof. by destruct m as [l [x|e]]. Qed.

Lemma outcome_ret {X : Type} (x : X) : outcome (ret x : M A X) = Ok x.
Proof. done. Qed.


Lemma outcome_bind_Ok {X Y : Type} (m : M A X) (k : X → M A Y) y :
  outcome (bind m k) = Ok y →
  ∃ x, outcome m = Ok x ∧ outcome (k x) = Ok y.
Proof. rewrite outcome_bind. destruct (outcome m); [eauto|done]. Qed.
End MonadLaws.

#[global] Arguments ret : simpl never.
#[global] Arguments bind : simpl never.

(** Unfolds the binds of the error monad only. *)
Ltac result_simpl :=
  repeat (change (@bind result result_monad) with
            (λ (X Y : Type) (r : result X) (k : X → result Y),
               match r with Ok x => k x | Err e => Err e end);
          change (@ret result result_monad) with (@Ok);
          cbv beta; simpl).

(** ** The sequential fold *)

Section Fold.
Context {A C B : Type}.
Implicit Types (step : C → list B → M A C) (xs : list (list B)).

Lemma mapM_getitem_kth xs (j : nat) :
  Forall (λ a, j < length a) xs →
  mapM (λ a, getitem a j) xs = Ok (kth_slice xs j).
Proof.
  induction 1 as [|a xs Ha _ IH]; [done|].
  unfold kth_slice in *. simpl.
  destruct (lookup_lt_is_Some_2 a j Ha) as [v Hv].
  rewrite (getitem_lookup _ _ _ Hv), Hv. simpl. by rewrite IH.
Qed.

(** A [scan] whose step returns its new carry as its output is a chain
    of steps over the successive slices. *)
Lemma scan_loop_chain {Y : Type} step xs (g : list C → M A Y) :
  ∀ (n k : nat) (carry : C),
  Forall (λ a, k + n ≤ length a) xs →
  (p <- scan_loop (λ x th, x1 <- step x th ;; ret (x1, x1)) xs n k carry ;;
   g p.2)
  = (X <- chain step carry (kth_slice xs <$> seq k n) ;; g X).
Proof.
  intros n. revert g. induction n as [|n IH]; intros g k carry Hlen.
  { simpl scan_loop. simpl chain. by rewrite !M_ret_bind. }
  simpl scan_loop. csimpl.
  rewrite mapM_getitem_kth
    by (eapply Forall_impl; [done|]; simpl; intros; lia).
  rewrite M_lift_Ok_bind, !M_bind_assoc.
  apply M_bind_ext. intros x1.
  rewrite !M_ret_bind, !M_bind_assoc.
  transitivity (X <- chain step x1 (kth_slice xs <$> seq (S k) n) ;;
                g (x1 :: X)).
  - rewrite <- (IH (λ X, g (x1 :: X)))
      by (eapply Forall_impl; [done|]; simpl; intros; lia).
    apply M_bind_ext. intros [final ys]. by rewrite M_ret_bind.
  - apply M_bind_ext. intros X. by rewrite M_ret_bind.
Qed.

Lemma scan_chain {Y : Type} step (init : C) xs (len : Z)
    (g : list C → M A Y) :
  (0 ≤ len)%Z →
  Forall (λ a, Z.of_nat (length a) = len) xs →
  (p <- scan (λ x th, x1 <- step x th ;; ret (x1, x1)) init xs len ;;
   g p.2)
  = (X <- chain step init (kth_slice xs <$> seq 0 (Z.to_nat len)) ;; g X).
Proof.
  intros Hlen Hxs. unfold scan.
  destruct (Z.ltb_spec len 0); [lia|].
  rewrite (proj2 (forallb_forall _ _)).
  - apply scan_loop_chain. eapply Forall_impl; [done|]. simpl. lia.
  - intros a Ha. apply Z.eqb_eq. rewrite Forall_forall in Hxs.
    apply Hxs. by apply list_elem_of_In.
Qed.

End Fold.

Lemma mapM_Ok_Forall {X Y : Type} (f : X → result Y) (g : X → Y)
    (l : list X) :
  Forall (λ x, f x = Ok (g x)) l → mapM f l = Ok (g <$> l).
Proof.
  induction 1 as [|x l Hx _ IH]; [done|].
  simpl. rewrite Hx. result_simpl. by rewrite IH.
Qed.

Lemma scan_loop_ext {A C B Y : Type} (f f' : C → list B → M A (C * Y))
    (xs : list (list B)) (n k : nat) (carry : C) :
  (∀ x th, f x th = f' x th) →
  scan_loop f xs n k carry = scan_loop f' xs n k carry.
Proof.
  intros Hff. revert k carry.
  induction n as [|n IH]; intros k carry; [done|].
  simpl. apply M_bind_ext. intros x. rewrite Hff.
  apply M_bind_ext. intros [carry' y]. by rewrite IH.
Qed.

Lemma scan_ext {A C B Y : Type} (f f' : C → list B → M A (C * Y))
    (init : C) (xs : list (list B)) (len : Z) :
  (∀ x th, f x th = f' x th) → scan f init xs len = scan f' init xs len.
Proof.
  intros Hff. unfold scan. destruct (len <? 0)%Z; [done|].
  destruct (forallb _ xs); [|done]. by apply scan_loop_ext.
Qed.

(** ** Single-instance runs *)

Section Run.
Context {A : Type} `{Numeric A} `{Integrator A} `{DxDt A}.
Implicit Types (T : Z) (theta : list (param A)).

Lemma run_scalars T (x0 : list A) (vals : list A) :
  run T x0 (Scalar <$> vals)
  = MkM [Call x0 (arange T)] (build_odeint dx_dt x0 (arange T) vals).
Proof.
  unfold run. rewrite (proj2 (forallb_forall _ _)).
  - unfold _run_static. rewrite mapM_fmap.
    rewrite (mapM_Ok_Forall _ (λ v, v)) by by apply Forall_true.
    rewrite list_fmap_id, M_lift_Ok_bind. done.
  - intros b Hb. apply list_elem_of_In in Hb.
    rewrite <- list_fmap_compose in Hb.
    apply list_elem_of_fmap in Hb as (v & -> & _). done.
Qed.

Lemma all_scalar_values theta :
  Forall (λ a, ndim a = 0) theta → ∃ vals, theta = Scalar <$> vals.
Proof.
  induction 1 as [|a theta Ha _ [vals ->]]; [by exists []|].
  destruct a as [v|l]; [|done]. by exists (v :: vals).
Qed.

Lemma run_time_varying_path T (x0 : list A) theta :
  Exists (λ a, ndim a ≠ 0) theta →
  run T x0 theta = _run_time_varying T x0 theta.
Proof.
  intros Hex. unfold run.
  destruct (forallb _ _) eqn:E; [|done]. exfalso.
  rewrite forallb_forall in E. apply Exists_exists in Hex as (a & Ha & Hnd).
  apply Hnd, Nat.eqb_eq, (E (ndim a =? 0)), list_elem_of_In.
  by apply (list_elem_of_fmap_2 (λ a, ndim a =? 0)).
Qed.

Lemma broadcast_to_valid T (a : param A) :
  (1 ≤ T)%Z → valid_entry T a → broadcast_to a (T - 1) = Ok (per_step T a).
Proof.
  intros HT Ha. unfold broadcast_to.
  destruct (Z.ltb_spec (T - 1) 0); [lia|].
  destruct a as [v|l]; [done|]. simpl in *. unfold broadcast_axis.
  by rewrite (proj2 (Nat.eqb_eq _ _)) by lia.
Qed.

Lemma length_per_step T (a : param A) :
  (1 ≤ T)%Z → valid_entry T a →
  Z.of_nat (length (per_step T a)) = (T - 1)%Z.
Proof.
  intros HT Ha. destruct a as [v|l]; [|done].
  simpl. rewrite length_replicate. lia.
Qed.

Lemma run_time_varying_manual T (x0 : list A) theta :
  (1 ≤ T)%Z → Forall (valid_entry T) theta →
  _run_time_varying T x0 theta = manual_chain T x0 theta.
Proof.
  intros HT Hvalid. unfold _run_time_varying, manual_chain.
  rewrite (mapM_Ok_Forall _ (per_step T))
    by (eapply Forall_impl; [done|]; intros; by apply broadcast_to_valid).
  rewrite M_lift_Ok_bind.
  rewrite <- (scan_chain unit_step x0 _ (T - 1) (λ X, ret (x0 :: X))).
  - erewrite scan_ext.
    + apply M_bind_ext. by intros [final X].
    + intros x th. unfold unit_step, t_one_step.
      by rewrite M_bind_assoc.
  - lia.
  - apply Forall_fmap. eapply Forall_impl; [done|].
    intros a Ha. by apply length_per_step.
Qed.

(** C3.  With an all-scalar [theta] and [T >= 1], [run] makes exactly
    one integrator call: from [x0], over the grid of the [T] integer
    time points [0, 1, ..., T-1], with the scalars of [theta] as the
    fixed parameters; what that call returns (trajectory or failure) is
    returned unchanged. *)
Theorem run_constant_path T (x0 : list A) (vals : list A) :
  (1 ≤ T)%Z →
  ∃ grid : list A,
    length grid = Z.to_nat T ∧
    (∀ k, k < Z.to_nat T → grid !! k = Some (of_nat k)) ∧
    run T x0 (Scalar <$> vals)
    = MkM [Call x0 grid] (build_odeint dx_dt x0 grid vals).
Proof.
  intros HT. exists (arange T). split; [|split].
  - unfold arange. by rewrite length_fmap, length_seq.
  - intros k Hk. unfold arange.
    by rewrite list_lookup_fmap, lookup_seq_lt.
  - apply run_scalars.
Qed.

(** What a successful chain of unit steps recorded: one state per
    slice, each obtained from its predecessor by one integrator call
    over [[0, 1]] with that step's slice. *)
Lemma chain_unit_step_lookup (slices : list (list A)) :
  ∀ (x : list A) X,
  outcome (chain unit_step x slices) = Ok X →
  length X = length slices ∧
  ∀ k xk th, (x :: X) !! k = Some xk → slices !! k = Some th →
    ∃ r x1, build_odeint dx_dt xk [of_nat 0; of_nat 1] th = Ok r ∧
            r !! 1 = Some x1 ∧ X !! k = Some x1.
Proof.
  induction slices as [|th0 rest IH]; intros x X.
  { simpl chain. rewrite outcome_ret. intros [= <-]. by split. }
  simpl chain. intros Hout.
  apply outcome_bind_Ok in Hout as (x1 & Hstep & Hout).
  apply outcome_bind_Ok in Hout as (X' & Hrest & Hout).
  rewrite outcome_ret in Hout. injection Hout as <-.
  destruct (IH _ _ Hrest) as [Hlen Hpt].
  split; [simpl; by rewrite Hlen|].
  intros [|k] xk th; simpl.
  - intros [= <-] [= <-].
    apply outcome_bind_Ok in Hstep as (r & Hr & Hget).
    exists r, x1. split; [done|]. split; [|done].
    by apply getitem_Ok.
  - intros Hk Hth. by apply Hpt.
Qed.

(** A chain succeeds when each of its steps does. *)
Lemma chain_total {St P : Type} (step : St → P → M A St) :
  (∀ x th, ∃ x1, outcome (step x th) = Ok x1) →
  ∀ slices x, ∃ X, outcome (chain step x slices) = Ok X.
Proof.
  intros Hstep slices. induction slices as [|th rest IH]; intros x.
  { by exists []. }
  destruct (Hstep x th) as [x1 Hx1]. destruct (IH x1) as [X HX].
  exists (x1 :: X). simpl chain.
  by rewrite outcome_bind, Hx1, outcome_bind, HX.
Qed.

Lemma lookup_kth_slice_fmap (seqs : list (list A)) (n k : nat) :
  k < n → (kth_slice seqs <$> seq 0 n) !! k = Some (kth_slice seqs k).
Proof. intros Hk. by rewrite list_lookup_fmap, lookup_seq_lt. Qed.

(** C1 (as amended).  For [T >= 2] and a non-empty [theta] whose entries
    are per-step sequences of length [T - 1], [run] is the manual chain:
    [T - 1] integrator calls over the local grid [[0, 1]], step [k]
    using the [k]-th slice of [theta] and starting from the state step
    [k - 1] ended in.  When it returns, the trajectory has [T] rows, row
    0 is [x0] and row [k + 1] is the end state of step [k]. *)
Theorem run_time_varying_chain T (x0 : list A) (seqs : list (list A)) :
  (2 ≤ T)%Z →
  seqs ≠ [] →
  Forall (λ l, Z.of_nat (length l) = (T - 1)%Z) seqs →
  run T x0 (Vec <$> seqs)
  = (X <- chain unit_step x0
            (kth_slice seqs <$> seq 0 (Z.to_nat (T - 1))) ;;
     ret (x0 :: X)) ∧
  ∀ traj, outcome (run T x0 (Vec <$> seqs)) = Ok traj →
    length traj = Z.to_nat T ∧
    traj !! 0 = Some x0 ∧
    ∀ k xk, S k < Z.to_nat T → traj !! k = Some xk →
      ∃ r x1, build_odeint dx_dt xk [of_nat 0; of_nat 1] (kth_slice seqs k)
              = Ok r ∧
              r !! 1 = Some x1 ∧ traj !! S k = Some x1.
Proof.
  intros HT Hne Hlen.
  assert (run T x0 (Vec <$> seqs)
          = (X <- chain unit_step x0
                    (kth_slice seqs <$> seq 0 (Z.to_nat (T - 1))) ;;
             ret (x0 :: X))) as Hrun.
  { rewrite run_time_varying_path.
    - rewrite run_time_varying_manual.
      + unfold manual_chain. rewrite <- list_fmap_compose.
        by rewrite list_fmap_id.
      + lia.
      + by apply Forall_fmap.
    - destruct seqs as [|l seqs]; [done|]. by left. }
  split; [done|]. intros traj. rewrite Hrun. intros Hout.
  apply outcome_bind_Ok in Hout as (X & HX & Hout).
  rewrite outcome_ret in Hout. injection Hout as <-.
  apply chain_unit_step_lookup in HX as [HlenX Hpt].
  rewrite length_fmap, length_seq in HlenX.
  split; [simpl; lia|]. split; [done|].
  intros k xk Hk Hxk.
  apply (Hpt k xk); [done|]. apply lookup_kth_slice_fmap. lia.
Qed.


Lemma calls_unit_step (x th : list A) :
  calls (unit_step x th) = [Call x [of_nat 0; of_nat 1]].
Proof.
  unfold unit_step. rewrite calls_bind. simpl.
  by destruct (build_odeint dx_dt x _ th).
Qed.

Lemma chain_length {St P : Type} (step : St → P → M A St) slices :
  ∀ x X, outcome (chain step x slices) = Ok X → length X = length slices.
Proof.
  induction slices as [|th rest IH]; intros x X; simpl chain.
  { rewrite outcome_ret. by intros [= <-]. }
  intros Hout.
  apply outcome_bind_Ok in Hout as (x1 & _ & Hout).
  apply outcome_bind_Ok in Hout as (X' & Hrest & Hout).
  rewrite outcome_ret in Hout. injection Hout as <-.
  simpl. f_equal. by eapply IH.
Qed.

(** C10.  For [T >= 2] and a mixed [theta] (documented entries, at least
    one scalar and at least one length-[(T-1)] vector) [run] takes the
    time-varying path: it is the manual chain in which a scalar entry
    stands for its value at every step, hence also the run on the tuple
    whose scalars are replaced by their [(T-1)]-fold repetitions.  No
    error is raised on the way to the integrator, which is called; and
    if the integrator returns two states for every unit step, the run
    returns a trajectory of [T] states. *)
Theorem run_mixed_broadcast T (x0 : list A) theta :
  (2 ≤ T)%Z →
  Forall (valid_entry T) theta →
  mixed theta →
  run T x0 theta = manual_chain T x0 theta ∧
  run T x0 theta = run T x0 ((λ a, Vec (per_step T a)) <$> theta) ∧
  calls (run T x0 theta) ≠ [] ∧
  ((∀ x th, ∃ r, build_odeint dx_dt x [of_nat 0; of_nat 1] th = Ok r ∧
                 length r = 2) →
   ∃ traj, outcome (run T x0 theta) = Ok traj ∧ length traj = Z.to_nat T).
Proof.
  intros HT Hvalid [Hsc Hvec].
  assert (run T x0 theta = manual_chain T x0 theta) as Hrun.
  { rewrite run_time_varying_path by done.
    apply run_time_varying_manual; [lia|done]. }
  split; [done|]. split; [|split].
  - rewrite Hrun. rewrite run_time_varying_path.
    + rewrite run_time_varying_manual; [|lia|].
      * unfold manual_chain. by rewrite <- list_fmap_compose.
      * apply Forall_fmap. eapply Forall_impl; [done|].
        intros a Ha. simpl. by apply length_per_step; [lia|].
    + apply Exists_fmap. eapply Exists_impl; [done|]. done.
  - rewrite Hrun. unfold manual_chain.
    destruct (Z.to_nat (T - 1)) as [|n] eqn:En; [lia|].
    simpl seq. rewrite fmap_cons. simpl chain.
    rewrite !calls_bind, calls_unit_step. done.
  - intros Hstep. rewrite Hrun. unfold manual_chain.
    destruct (chain_total unit_step) with
      (slices := kth_slice (per_step T <$> theta)
                   <$> seq 0 (Z.to_nat (T - 1))) (x := x0) as [X HX].
    { intros x th. destruct (Hstep x th) as (r & Hr & Hlen).
      destruct r as [|y0 [|y1 r]]; [done..|].
      exists y1. unfold unit_step. rewrite outcome_bind. simpl.
      by rewrite Hr. }
    exists (x0 :: X). rewrite outcome_bind, HX, outcome_ret.
    split; [done|]. apply chain_length in HX.
    rewrite length_fmap, length_seq in HX. simpl. lia.
Qed.





Lemma run_first_state T (x0 : list A) theta traj :
  (∀ (x t : list A) (args : list A) r,
     build_odeint dx_dt x t args = Ok r → t ≠ [] → r !! 0 = Some x) →
  (1 ≤ T)%Z →
  outcome (run T x0 theta) = Ok traj → traj !! 0 = Some x0.
Proof.
  intros Hfirst HT.
  destruct (decide (Forall (λ a, ndim a = 0) theta)) as [Hsc|Hnsc].
  - apply all_scalar_values in Hsc as [vals ->].
    rewrite run_scalars. simpl. intros Hr.
    apply (Hfirst _ _ _ _ Hr). unfold arange.
    destruct (Z.to_nat T) eqn:E; [lia|done].
  - apply not_Forall_Exists in Hnsc; [|intros a; apply _].
    rewrite run_time_varying_path by done.
    unfold _run_time_varying. intros Hout.
    apply outcome_bind_Ok in Hout as (th & _ & Hout).
    apply outcome_bind_Ok in Hout as ([final X] & _ & Hout).
    rewrite outcome_ret in Hout. by injection Hout as <-.
Qed.
End Run.

(** ** Shapes *)


Lemma length_chunks {X : Type} (n sz : nat) (x : list X) :
  length (chunks n sz x) = n.
Proof. unfold chunks. by rewrite length_fmap, length_seq. Qed.


Lemma length_kth_slice {X : Type} (m : list (list X)) (j : nat) :
  Forall (λ row, j < length row) m → length (kth_slice m j) = length m.
Proof.
  induction 1 as [|row m Hrow _ IH]; [done|].
  unfold kth_slice in *. csimpl.
  destruct (lookup_lt_is_Some_2 row j Hrow) as [v ->]. csimpl.
  by rewrite IH.
Qed.

Lemma swapaxes01_columns {X : Type} (c : nat) (m : list (list X)) :
  Forall (λ row, length row = c) m →
  swapaxes01 c m = Ok (kth_slice m <$> seq 0 c).
Proof.
  intros Hm. unfold swapaxes01. apply mapM_Ok_Forall, Forall_forall.
  intros j Hj. apply elem_of_seq in Hj. apply mapM_getitem_kth.
  eapply Forall_impl; [done|]. simpl. lia.
Qed.

Lemma replicate_as_fmap {X : Type} (n j : nat) (x : X) :
  replicate n x = (λ _, x) <$> seq j n.
Proof. revert j. induction n as [|n IH]; intros j; csimpl; [done|]. by rewrite <- IH. Qed.


Lemma lift_bind_ret {A X Y : Type} (r : result X) (h : X → Y) :
  (x <- lift r ;; ret (h x)) = (lift (rmap h r) : M A Y).
Proof. by destruct r. Qed.

(** Prepending each member's initial state to its column of the folded
    states is reading the member's column of the initial state followed
    by the folded states. *)
Lemma assemble_columns {X : Type} (x0 : list X) :
  ∀ F : nat → result (list X),
  rmap (zip_with app ((λ r, [r]) <$> x0)) (mapM F (seq 0 (length x0)))
  = mapM (λ i, xi <- getitem x0 i ;; ys <- F i ;; ret (xi :: ys))
      (seq 0 (length x0)).
Proof.
  induction x0 as [|x x0 IH]; intros F; [done|].
  simpl length. simpl seq. simpl mapM. rewrite !mapM_seq_S.
  rewrite (mapM_ext
             ((λ i, xi <- getitem (x :: x0) i ;; ys <- F i ;;
                    ret (xi :: ys)) ∘ S)
             (λ i, xi <- getitem x0 i ;; ys <- (F ∘ S) i ;;
                   ret (xi :: ys))) by (intros; reflexivity).
  rewrite <- (IH (F ∘ S)). result_simpl.
  destruct (F 0) as [y|]; [|done]. simpl.
  by destruct (mapM (F ∘ S) (seq 0 (length x0))).
Qed.

(** ** Batch runs *)

Section Batch.
Context {A : Type} `{Numeric A} `{Integrator A} `{DxDt A}.
Implicit Types (T : Z) (theta : list (bparam A)).

Lemma expand_and_transpose_valid T (b : nat) (a : bparam A) :
  (1 ≤ T)%Z → valid_batch_entry T b a →
  expand_and_transpose T b a = Ok (expanded T a).
Proof.
  intros HT Ha. unfold expand_and_transpose, expanded.
  destruct (Z.ltb_spec (T - 1) 0); [lia|].
  destruct a as [l|c m]; simpl in Ha.
  - unfold broadcast_axis. rewrite (proj2 (Nat.eqb_eq _ _)) by done.
    result_simpl. by rewrite (replicate_as_fmap _ 0).
  - destruct Ha as (Hm & Hc & Hrows).
    rewrite swapaxes01_columns by done. result_simpl.
    unfold compatible.
    rewrite (proj2 (Nat.eqb_eq c _)), (proj2 (Nat.eqb_eq (length m) _))
      by (done || lia).
    simpl. rewrite (mapM_Ok_Forall _ (λ col, col)).
    + rewrite list_fmap_id. result_simpl. unfold broadcast_axis.
      rewrite length_fmap, length_seq.
      rewrite (proj2 (Nat.eqb_eq c _)) by lia.
      by replace (Z.to_nat (T - 1)) with c by lia.
    + apply Forall_fmap, Forall_forall. intros j Hj.
      apply elem_of_seq in Hj. simpl. unfold broadcast_axis.
      rewrite length_kth_slice
        by (eapply Forall_impl; [done|]; simpl; lia).
      by rewrite (proj2 (Nat.eqb_eq _ _)).
Qed.

Lemma kth_slice_expanded T theta (k : nat) :
  k < Z.to_nat (T - 1) →
  kth_slice (expanded T <$> theta) k = batch_slice k <$> theta.
Proof.
  intros Hk. unfold kth_slice. induction theta as [|a theta IH]; [done|].
  csimpl. unfold expanded at 1.
  rewrite list_lookup_fmap, lookup_seq_lt by done. csimpl.
  by rewrite IH.
Qed.

Lemma run_batch_manual T (x0 : list (list A)) theta :
  (1 ≤ T)%Z →
  Forall (valid_batch_entry T (length x0)) theta →
  run_batch T x0 theta = manual_batch_chain T x0 theta.
Proof.
  intros HT Hvalid. unfold run_batch, manual_batch_chain, shape2.
  rewrite (mapM_Ok_Forall _ (expanded T))
    by (eapply Forall_impl; [done|]; intros;
        by apply expand_and_transpose_valid).
  rewrite M_lift_Ok_bind.
  transitivity
    (X <- chain batch_unit_step x0
            (kth_slice (expanded T <$> theta)
               <$> seq 0 (Z.to_nat (T - 1))) ;;
     X' <- lift (swapaxes01 (length x0) X) ;;
     ret (zip_with app ((λ r, [r]) <$> x0) X')).
  - rewrite <- (scan_chain batch_unit_step x0 _ (T - 1)
                  (λ X, X' <- lift (swapaxes01 (length x0) X) ;;
                        ret (zip_with app ((λ r, [r]) <$> x0) X'))).
    + erewrite scan_ext.
      * apply M_bind_ext. by intros [final X].
      * intros x th. unfold batch_unit_step, t_one_step.
        by rewrite M_bind_assoc.
    + lia.
    + apply Forall_fmap, Forall_forall. intros a _. simpl.
      unfold expanded. rewrite length_fmap, length_seq. lia.
  - rewrite (list_fmap_ext (kth_slice (expanded T <$> theta))
               (λ k, batch_slice k <$> theta)).
    + apply M_bind_ext. intros X. rewrite lift_bind_ret. f_equal.
      unfold swapaxes01. by rewrite assemble_columns.
    + intros i k Hk. apply lookup_seq in Hk as [-> Hk].
      by apply kth_slice_expanded.
Qed.










Lemma run_batch_first_state T (x0 : list (list A)) theta out :
  outcome (run_batch T x0 theta) = Ok out →
  length out = length x0 ∧
  ∀ i xi, x0 !! i = Some xi → ∃ traj, out !! i = Some (xi :: traj).
Proof.
  unfold run_batch, shape2. intros Hout.
  apply outcome_bind_Ok in Hout as (th & _ & Hout).
  apply outcome_bind_Ok in Hout as ([final X] & _ & Hout).
  apply outcome_bind_Ok in Hout as (X' & Hsw & Hout).
  rewrite outcome_ret in Hout. injection Hout as <-.
  unfold lift in Hsw. cbn [outcome] in Hsw.
  apply mapM_length in Hsw. rewrite length_seq in Hsw.
  split.
  - rewrite length_zip_with, length_fmap. lia.
  - intros i xi Hi.
    destruct (lookup_lt_is_Some_2 X' i) as [col Hcol].
    { rewrite Hsw. by eapply lookup_lt_Some. }
    exists col. rewrite lookup_zip_with, list_lookup_fmap, Hi, Hcol.
    done.
Qed.

(** C6.  Given an integrator whose first returned state is the initial
    state it was given, every trajectory produced by [run] (on either
    path, [T >= 1]) has [x0] as its row 0, and in every output produced
    by [run_batch] the first state of member [i] is [x0[i]]. *)
Theorem first_state_is_initial_state :
  (∀ (x t : list A) (args : list A) r,
     build_odeint dx_dt x t args = Ok r → t ≠ [] → r !! 0 = Some x) →
  (∀ T (x0 : list A) (theta : list (param A)) traj,
     (1 ≤ T)%Z → outcome (run T x0 theta) = Ok traj →
     traj !! 0 = Some x0) ∧
  (∀ T (x0 : list (list A)) theta out,
     outcome (run_batch T x0 theta) = Ok out →
     length out = length x0 ∧
     ∀ i xi, x0 !! i = Some xi →
       ∃ traj, out !! i = Some traj ∧ traj !! 0 = Some xi).
Proof.
  intros Hfirst. split.
  - intros T x0 theta traj HT. by apply run_first_state.
  - intros T x0 theta out Hout.
    destruct (run_batch_first_state _ _ _ _ Hout) as [Hlen Hpt].
    split; [done|]. intros i xi Hi.
    destruct (Hpt i xi Hi) as [traj Htraj]. eauto.
Qed.
End Batch.


(** ** The concrete models *)

Section Models.
Open Scope R_scope.

(** C8.  [SEIRModel.growth_rate] of [(beta, sigma, gamma)] is
    [(-(sigma + gamma) + sqrt((sigma - gamma)^2 + 4 sigma beta)) / 2],
    in exact real arithmetic; at [(0.5, 0.2, 0.1)] this is
    [(-(0.3) + sqrt(0.01 + 0.4)) / 2]. *)
Theorem SEIR_growth_rate_closed_form :
  (∀ beta sigma gamma : R,
     SEIRModel.growth_rate [beta; sigma; gamma]
     = Ok ((- (sigma + gamma)
            + sqrt ((sigma - gamma) ^ 2 + 4 * sigma * beta))
           / 2)) ∧
  SEIRModel.growth_rate [0.5; 0.2; 0.1]
  = Ok ((- (0.3) + sqrt (0.01 + 0.4)) / 2).
Proof.
  split.
  - intros beta sigma gamma. reflexivity.
  - unfold SEIRModel.growth_rate.
    replace (0.2 + 0.1) with 0.3 by lra.
    replace ((0.2 - 0.1) ^ 2 + 4 * 0.2 * 0.5) with (0.01 + 0.4) by lra.
    reflexivity.
Qed.

(** The SEIR growth rate is a root of the characteristic polynomial
    [r^2 + (sigma + gamma) r + sigma (gamma - beta)] of the linearized
    exposed/infected system. *)
Lemma SEIR_growth_rate_eigenvalue (beta sigma gamma r : R) :
  0 <= (sigma - gamma) ^ 2 + 4 * sigma * beta →
  SEIRModel.growth_rate [beta; sigma; gamma] = Ok r →
  r * r + (sigma + gamma) * r + sigma * (gamma - beta) = 0.
Proof.
  intros Hdisc [= <-].
  pose proof (sqrt_sqrt _ Hdisc) as Hsq.
  set (s := sqrt _) in *. nra.
Qed.

(** Numerically, the growth rate at [(0.5, 0.2, 0.1)] is about 0.17. *)
Lemma SEIR_growth_rate_sample_value (r : R) :
  SEIRModel.growth_rate [0.5; 0.2; 0.1] = Ok r → 0.17 < r < 0.171.
Proof.
  intros [= <-].
  assert (0 <= (0.2 - 0.1) ^ 2 + 4 * 0.2 * 0.5) as Hdisc by lra.
  pose proof (sqrt_sqrt _ Hdisc) as Hsq.
  pose proof (sqrt_pos ((0.2 - 0.1) ^ 2 + 4 * 0.2 * 0.5)) as Hpos.
  set (s := sqrt _) in *. nra.
Qed.

(** C9.  With a non-zero total population, the derivatives of the
    non-cumulative compartments sum to zero, for SIR and for SEIR. *)
Theorem derivatives_conserve_population :
  (∀ S_ I_ R_ C_ t beta gamma : R,
     S_ + I_ + R_ ≠ 0 →
     ∃ dS_dt dI_dt dR_dt dC_dt,
       SIRModel.dx_dt [S_; I_; R_; C_] t [beta; gamma]
       = Ok [dS_dt; dI_dt; dR_dt; dC_dt] ∧
       dS_dt + dI_dt + dR_dt = 0) ∧
  (∀ S_ E_ I_ R_ C_ t beta sigma gamma : R,
     S_ + E_ + I_ + R_ ≠ 0 →
     ∃ dS_dt dE_dt dI_dt dR_dt dC_dt,
       SEIRModel.dx_dt [S_; E_; I_; R_; C_] t [beta; sigma; gamma]
       = Ok [dS_dt; dE_dt; dI_dt; dR_dt; dC_dt] ∧
       dS_dt + dE_dt + dI_dt + dR_dt = 0).
Proof.
  split.
  - intros S_ I_ R_ C_ t beta gamma HN.
    do 4 eexists. split; [reflexivity|]. simpl. field. exact HN.
  - intros S_ E_ I_ R_ C_ t beta sigma gamma HN.
    do 5 eexists. split; [reflexivity|]. simpl. field. exact HN.
Qed.
End Models.

(** ** The Euler instance meets the integrator interface *)

Section EulerFacts.
Import Euler.
Local Open Scope Z_scope.

Lemma euler_first {P : Type} (f : list Z → Z → P → result (list Z))
    (x t : list Z) (args : P) r :
  euler f x t args = Ok r → t ≠ [] → r !! 0%nat = Some x.
Proof.
  destruct t as [|t0 ts]; [done|]. unfold euler.
  destruct (euler_from f x t0 ts args) as [rest|]; result_simpl; [|done].
  by intros [= <-].
Qed.


Lemma euler_decay_unit_step (x : list Z) (t : list Z) (th : list Z) :
  length t = 2%nat →
  ∃ r, euler decay_dx_dt x t th = Ok r ∧ length r = 2%nat.
Proof.
  destruct t as [|t0 [|t1 [|t2 t]]]; try done. intros _.
  eexists. split; reflexivity.
Qed.
End EulerFacts.

(** ** Sample runs *)

Section Samples.
Import Euler.
Local Open Scope Z_scope.

(** C1: with an empty [theta], which is classified as all-scalar, [run]
    makes one call over the whole grid; for a derivative that depends on
    time the trajectory differs from the chained one, whose steps each
    restart the local time at 0. *)
Lemma run_empty_theta_not_chain :
  2 ≤ 3 ∧
  Forall (λ l : list Z, Z.of_nat (length l) = 3 - 1) [] ∧
  @run Z _ _ clock_dx_dt 3 [5] (Vec <$> [])
  = MkM [Call [5] [0; 1; 2]] (Ok [[5]; [5]; [6]]) ∧
  (X <- chain (@unit_step Z _ _ clock_dx_dt) [5]
          (kth_slice [] <$> seq 0 (Z.to_nat (3 - 1))) ;;
   ret ([5] :: X))
  = MkM [Call [5] [0; 1]; Call [5] [0; 1]] (Ok [[5]; [5]; [5]]) ∧
  outcome (@run Z _ _ clock_dx_dt 3 [5] (Vec <$> []))
  ≠ outcome (X <- chain (@unit_step Z _ _ clock_dx_dt) [5]
                    (kth_slice [] <$> seq 0 (Z.to_nat (3 - 1))) ;;
             ret ([5] :: X)).
Proof.
  split; [lia|]. split; [constructor|].
  split; [reflexivity|]. split; [reflexivity|].
  vm_compute. discriminate.
Qed.

(** C2: for an empty batch, [reshape(0, -1)] is rejected, while there is
    nothing to evaluate per instance. *)
Lemma dx_dt_batch_empty_batch :
  dx_dt_batch si_dx_dt (concat []) 0 [[]; []] = Err ShapeError ∧
  rmap (λ rows, concat rows) (per_instance si_dx_dt [] 0 [[]; []]) = Ok [] ∧
  dx_dt_batch si_dx_dt (concat []) 0 [[]; []]
  ≠ rmap (λ rows, concat rows) (per_instance si_dx_dt [] 0 [[]; []]).
Proof. split; [reflexivity|]. split; [reflexivity|]. discriminate. Qed.


Lemma run_time_varying_chain_sample :
  2 ≤ 3 ∧
  [[1; 1]; [0; 1]] ≠ [] ∧
  Forall (λ l : list Z, Z.of_nat (length l) = 3 - 1) [[1; 1]; [0; 1]] ∧
  run 3 [5; 1] (Vec <$> [[1; 1]; [0; 1]])
  = (X <- chain unit_step [5; 1]
            (kth_slice [[1; 1]; [0; 1]] <$> seq 0 (Z.to_nat (3 - 1))) ;;
     ret ([5; 1] :: X)).
Proof.
  assert (2 ≤ 3) as HT by lia.
  assert ([[1; 1]; [0; 1]] ≠ []) as Hne by discriminate.
  assert (Forall (λ l : list Z, Z.of_nat (length l) = 3 - 1)
            [[1; 1]; [0; 1]]) as Hlen
    by (repeat constructor).
  split; [exact HT|]. split; [exact Hne|]. split; [exact Hlen|].
  exact (proj1 (run_time_varying_chain 3 [5; 1] _ HT Hne Hlen)).
Defined.

Lemma dx_dt_batch_per_instance_sample :
  (0 < 2)%nat ∧
  length [[5; 1]; [7; 2]] = 2%nat ∧
  Forall (λ r : list Z, length r = 2%nat) [[5; 1]; [7; 2]] ∧
  [[1; 1]; [0; 1]] ≠ [] ∧
  Forall (λ a : list Z, length a = 2%nat) [[1; 1]; [0; 1]] ∧
  dx_dt_batch si_dx_dt (concat [[5; 1]; [7; 2]]) 0 [[1; 1]; [0; 1]]
  = rmap (λ rows, concat rows)
      (per_instance si_dx_dt [[5; 1]; [7; 2]] 0 [[1; 1]; [0; 1]]).
Proof.
  assert (0 < 2)%nat as Hpos by lia.
  assert (length [[5; 1]; [7; 2]] = 2%nat) as HX by reflexivity.
  assert (Forall (λ r : list Z, length r = 2%nat) [[5; 1]; [7; 2]])
    as Hrows by (repeat constructor).
  assert ([[1; 1]; [0; 1]] ≠ []) as Hne by discriminate.
  assert (Forall (λ a : list Z, length a = 2%nat) [[1; 1]; [0; 1]])
    as Hargs by (repeat constructor).
  repeat (split; [assumption|]).
  exact (dx_dt_batch_per_instance si_dx_dt _ 0 _ 2%nat 2%nat
           Hpos HX Hrows Hne Hargs).
Defined.

Lemma run_constant_path_sample :
  1 ≤ 3 ∧
  ∃ grid : list Z,
    length grid = Z.to_nat 3 ∧
    (∀ k, (k < Z.to_nat 3)%nat → grid !! k = Some (of_nat k)) ∧
    run 3 [5; 1] (Scalar <$> [1; 0])
    = MkM [Call [5; 1] grid] (build_odeint dx_dt [5; 1] grid [1; 0]).
Proof.
  assert (1 ≤ 3) as HT by lia.
  split; [exact HT|]. exact (run_constant_path 3 [5; 1] [1; 0] HT).
Defined.



Lemma first_state_is_initial_state_sample :
  (∀ (x t args : list Z) r,
     build_odeint dx_dt x t args = Ok r → t ≠ [] → r !! 0%nat = Some x) ∧
  [[5; 1]; [0; 6]; [0; 6]] !! 0%nat = Some [5; 1] ∧
  ∃ traj, [[[5; 1]; [0; 6]]; [[7; 2]; [-7; 16]]] !! 1%nat = Some traj ∧
          traj !! 0%nat = Some [7; 2].
Proof.
  assert (∀ (x t args : list Z) r,
            build_odeint dx_dt x t args = Ok r → t ≠ [] →
            r !! 0%nat = Some x) as Hfirst
    by (intros x t args r; apply euler_first).
  split; [exact Hfirst|]. split.
  - apply (proj1 (first_state_is_initial_state Hfirst)
             3 [5; 1] [Scalar 1; Scalar 0]); [lia|reflexivity].
  - apply (proj2 (first_state_is_initial_state Hfirst)
             2 [[5; 1]; [7; 2]] [BVec [1]; BVec [0]]); reflexivity.
Defined.


Lemma run_mixed_broadcast_sample :
  2 ≤ 3 ∧
  Forall (valid_entry 3) [Scalar 1; Vec [0; 1]] ∧
  mixed [Scalar 1; Vec [0; 1]] ∧
  @run Z _ _ decay_dx_dt 3 [5; 1] [Scalar 1; Vec [0; 1]]
  = @manual_chain Z _ _ decay_dx_dt 3 [5; 1] [Scalar 1; Vec [0; 1]] ∧
  ∃ traj,
    outcome (@run Z _ _ decay_dx_dt 3 [5; 1] [Scalar 1; Vec [0; 1]])
    = Ok traj ∧ length traj = Z.to_nat 3.
Proof.
  assert (2 ≤ 3) as HT by lia.
  assert (Forall (valid_entry 3) [Scalar 1; Vec [0; 1]]) as Hvalid
    by (repeat constructor).
  assert (mixed [Scalar 1; Vec [0; 1]]) as Hmixed
    by (split; [by left|by right; left]).
  repeat (split; [assumption|]).
  destruct (@run_mixed_broadcast Z _ _ decay_dx_dt 3 [5; 1] _
              HT Hvalid Hmixed) as (Hchain & _ & _ & Hok).
  split; [exact Hchain|]. apply Hok.
  intros x th. by apply euler_decay_unit_step.
Defined.
End Samples.

Section ModelSamples.
Open Scope R_scope.

Lemma derivatives_conserve_population_sample :
  990 + 10 + 0 ≠ 0 ∧
  ∃ dS_dt dI_dt dR_dt dC_dt,
    SIRModel.dx_dt [990; 10; 0; 10] 0 [0.3; 0.1]
    = Ok [dS_dt; dI_dt; dR_dt; dC_dt] ∧
    dS_dt + dI_dt + dR_dt = 0.
Proof.
  assert (990 + 10 + 0 ≠ 0) as HN by lra.
  split; [exact HN|].
  exact (proj1 derivatives_conserve_population 990 10 0 10 0 0.3 0.1 HN).
Defined.
End ModelSamples.

(** * Further properties *)

(** ** The batch integrator *)

Section BatchIntegrator.
Context {A : Type} `{Integrator A}.
Implicit Types (f : list A → A → list A → result (list A)).

Lemma block_concat {X : Type} (d i : nat) (rows : list (list X)) row :
  Forall (λ r, length r = d) rows →
  rows !! i = Some row → block d i (concat rows) = row.
Proof.
  intros Hrows Hi. pose proof (chunks_concat d rows Hrows) as Hch.
  apply (f_equal (λ l, l !! i)) in Hch. rewrite Hi in Hch.
  unfold chunks in Hch. rewrite list_lookup_fmap in Hch.
  rewrite lookup_seq_lt in Hch by (by eapply lookup_lt_Some).
  simpl in Hch. by injection Hch.
Qed.

Lemma kth_slice_chunks (b d i : nat) (raw : list (list A)) :
  i < b → kth_slice (chunks b d <$> raw) i = block d i <$> raw.
Proof.
  intros Hi. unfold kth_slice. induction raw as [|row raw IH]; [done|].
  csimpl. unfold chunks at 1.
  rewrite list_lookup_fmap, lookup_seq_lt by done. csimpl. by rewrite IH.
Qed.

Lemma odeint_batch_blocks f (x0 : list (list A)) (t : list A) args raw
    (b d : nat) :
  0 < b →
  length x0 = b →
  Forall (λ r, length r = d) x0 →
  build_odeint (dx_dt_batch f) (concat x0) t args = Ok raw →
  length raw = length t →
  Forall (λ row, length row = b * d) raw →
  outcome (build_odeint_batch f x0 t args)
  = Ok ((λ i, block d i <$> raw) <$> seq 0 b).
Proof.
  intros Hpos Hb Hd Hraw Hlen Hrows.
  unfold build_odeint_batch, shape2.
  destruct x0 as [|r0 x0]; [simpl in Hb; lia|].
  apply Forall_cons in Hd as [Hr0 Hd]. rewrite Hb, Hr0.
  rewrite outcome_bind. unfold integrate at 1. cbn [outcome].
  rewrite Hraw. rewrite outcome_bind. unfold lift at 1. cbn [outcome].
  unfold reshape3.
  rewrite (length_concat_rows (b * d)) by done.
  rewrite (proj2 (Nat.eqb_eq _ _)) by lia.
  rewrite <- Hlen, (chunks_concat (b * d)) by done.
  unfold lift. cbn [outcome].
  rewrite swapaxes01_columns.
  - f_equal. apply list_fmap_ext. intros j i Hi.
    apply lookup_seq in Hi as [-> Hi]. by apply kth_slice_chunks.
  - apply Forall_fmap, Forall_forall. intros row _. simpl.
    apply length_chunks.
Qed.

(** X1.  When the integrator returns one flat state of [batch_sz * d]
    entries per query time, member [i] of the result of [odeint_batch] at
    time index [k] is the [i]-th block of [d] entries of the [k]-th flat
    state. *)
Theorem odeint_batch_unflatten f (x0 : list (list A)) (t : list A) args
    raw (b d : nat) :
  0 < b →
  length x0 = b →
  Forall (λ r, length r = d) x0 →
  build_odeint (dx_dt_batch f) (concat x0) t args = Ok raw →
  length raw = length t →
  Forall (λ row, length row = b * d) raw →
  ∃ out, outcome (build_odeint_batch f x0 t args) = Ok out ∧
    length out = b ∧
    ∀ i k row, i < b → raw !! k = Some row →
      ∃ traj, out !! i = Some traj ∧ traj !! k = Some (block d i row).
Proof.
  intros Hpos Hb Hd Hraw Hlen Hrows. eexists. split.
  { by eapply odeint_batch_blocks. }
  split; [by rewrite length_fmap, length_seq|].
  intros i k row Hi Hk. exists (block d i <$> raw). split.
  - by rewrite list_lookup_fmap, lookup_seq_lt.
  - by rewrite list_lookup_fmap, Hk.
Qed.
End BatchIntegrator.

(** ** More on the vectorized derivative *)

Section VectorizedDerivativeMore.
Context {A : Type}.
Implicit Types (f : list A → A → list A → result (list A)).
Implicit Types (X : list (list A)) (args : list (list A)).

Lemma forallb_Exists_false {Y : Type} (p : Y → bool) (l : list Y) :
  Exists (λ y, p y = false) l → forallb p l = false.
Proof.
  induction 1 as [y l Hy|y l _ IH]; simpl.
  - by rewrite Hy.
  - rewrite IH. apply andb_false_r.
Qed.

(** X2.  What [dx_dt_batch] rejects: no extra parameter at all (the batch
    size is read off the first one), an empty first parameter, a flat
    state whose length is not a multiple of the batch size, and a
    parameter sequence whose length differs from that of the first. *)
Theorem dx_dt_batch_rejects f (x : list A) (t : A) :
  dx_dt_batch f x t [] = Err IndexError ∧
  (∀ a0 args, length a0 = 0 →
     dx_dt_batch f x t (a0 :: args) = Err ShapeError) ∧
  (∀ a0 args, length x mod length a0 ≠ 0 →
     dx_dt_batch f x t (a0 :: args) = Err ShapeError) ∧
  (∀ a0 args, Exists (λ a, length a ≠ length a0) args →
     ∃ e, dx_dt_batch f x t (a0 :: args) = Err e).
Proof.
  split; [done|]. split; [|split].
  - intros a0 args H0. unfold dx_dt_batch. simpl getitem. result_simpl.
    unfold reshape_rows. by rewrite H0.
  - intros a0 args Hmod. unfold dx_dt_batch. simpl getitem. result_simpl.
    unfold reshape_rows. destruct (length a0 =? 0); [done|].
    by destruct (Nat.eqb_spec (length x mod length a0) 0).
  - intros a0 args Hex. unfold dx_dt_batch. simpl getitem. result_simpl.
    unfold reshape_rows. destruct (length a0 =? 0); [eauto|].
    destruct (length x mod length a0 =? 0); [|eauto]. result_simpl.
    unfold vmap. rewrite length_chunks. simpl forallb.
    rewrite Nat.eqb_refl. simpl.
    rewrite forallb_Exists_false; [eauto|].
    eapply Exists_impl; [done|]. intros a Ha. simpl.
    by apply Nat.eqb_neq.
Qed.

Lemma Forall_lookup_pair {Y : Type} (P : Y → Prop) (l : list Y) :
  (∀ i y, l !! i = Some y → P y) → Forall P l.
Proof. intros HP. apply Forall_lookup. exact HP. Qed.

Lemma omap_head_kth_slice args : omap head args = kth_slice args 0.
Proof.
  unfold kth_slice. induction args as [|a args IH]; [done|].
  csimpl. rewrite IH. by destruct a.
Qed.

Lemma kth_slice_drop args (i : nat) :
  kth_slice (drop 1 <$> args) i = kth_slice args (S i).
Proof.
  unfold kth_slice. induction args as [|a args IH]; [done|].
  csimpl. rewrite IH. by rewrite lookup_drop.
Qed.

Lemma per_instance_lookup f t X :
  ∀ args D, per_instance f X t args = Ok D →
  length D = length X ∧
  ∀ i xi, X !! i = Some xi →
    ∃ di, D !! i = Some di ∧ f xi t (kth_slice args i) = Ok di.
Proof.
  induction X as [|x X IH]; intros args D; simpl; result_simpl.
  { intros [= <-]. by split. }
  destruct (f x t (omap head args)) as [d|] eqn:Hd; [|done].
  destruct (per_instance f X t (drop 1 <$> args)) as [ds|] eqn:Hds;
    [|done].
  intros [= <-]. destruct (IH _ _ Hds) as [Hlen Hpt].
  split; [simpl; by rewrite Hlen|].
  intros [|i] xi; simpl.
  - intros [= <-]. exists d. by rewrite <- omap_head_kth_slice.
  - intros Hi. destruct (Hpt i xi Hi) as (di & Hdi & Hfi).
    exists di. by rewrite <- kth_slice_drop.
Qed.

Lemma dx_dt_batch_instance f X t args (b d : nat) flat :
  0 < b →
  length X = b →
  Forall (λ r, length r = d) X →
  args ≠ [] →
  Forall (λ a, length a = b) args →
  (∀ y s a dy, f y s a = Ok dy → length dy = length y) →
  dx_dt_batch f (concat X) t args = Ok flat →
  ∀ i xi, X !! i = Some xi →
    f xi t (kth_slice args i) = Ok (block d i flat).
Proof.
  intros Hpos HX Hrows Hne Hargs Hf. unfold dx_dt_batch.
  destruct args as [|a0 args]; [done|]. simpl getitem. result_simpl.
  assert (length a0 = length X) as -> by (inversion Hargs; congruence).
  rewrite (reshape_rows_concat d) by (done || lia). result_simpl.
  rewrite vmap_per_instance by (by rewrite HX).
  destruct (per_instance f X t (a0 :: args)) as [D|] eqn:HD; [|done].
  intros [= <-] i xi Hi.
  destruct (per_instance_lookup _ _ _ _ _ HD) as [Hlen Hpt].
  destruct (Hpt i xi Hi) as (di & Hdi & Hfi).
  etrans; [exact Hfi|]. f_equal.
  symmetry. apply block_concat; [|done].
  apply Forall_lookup_pair. intros j dj Hdj.
  destruct (lookup_lt_is_Some_2 X j) as [xj Hxj].
  { rewrite <- Hlen. by eapply lookup_lt_Some. }
  destruct (Hpt j xj Hxj) as (dj' & Hdj' & Hfj).
  rewrite Hdj in Hdj'. injection Hdj' as <-.
  rewrite (Hf _ _ _ _ Hfj). rewrite Forall_lookup in Hrows.
  by eapply Hrows.
Qed.

(** X3.  Batch members do not influence each other: for two batches of
    the same shape that agree on the state and the parameters of member
    [i], the vectorized derivatives agree on member [i]'s block, whatever
    the other members are. *)
Theorem dx_dt_batch_independent f X X' t args args' (b d i : nat)
    flat flat' :
  0 < b →
  length X = b → length X' = b →
  Forall (λ r, length r = d) X → Forall (λ r, length r = d) X' →
  args ≠ [] → args' ≠ [] →
  Forall (λ a, length a = b) args → Forall (λ a, length a = b) args' →
  (∀ y s a dy, f y s a = Ok dy → length dy = length y) →
  dx_dt_batch f (concat X) t args = Ok flat →
  dx_dt_batch f (concat X') t args' = Ok flat' →
  i < b →
  X !! i = X' !! i →
  kth_slice args i = kth_slice args' i →
  block d i flat = block d i flat'.
Proof.
  intros Hpos HX HX' Hr Hr' Hne Hne' Ha Ha' Hf Hflat Hflat' Hi HXi Hai.
  destruct (lookup_lt_is_Some_2 X i) as [xi Hxi]; [lia|].
  pose proof (dx_dt_batch_instance f X t args b d flat
                Hpos HX Hr Hne Ha Hf Hflat i xi Hxi) as H1.
  rewrite HXi in Hxi.
  pose proof (dx_dt_batch_instance f X' t args' b d flat'
                Hpos HX' Hr' Hne' Ha' Hf Hflat' i xi Hxi) as H2.
  rewrite Hai in H1. congruence.
Qed.
End VectorizedDerivativeMore.

(** ** More on runs *)

Section RunMore.
Context {A : Type} `{Numeric A} `{Integrator A} `{DxDt A}.



End RunMore.

(** ** Causality of the stepwise fold *)

Section Causality.
Context {A : Type} `{Numeric A} `{Integrator A} `{DxDt A}.

Lemma chain_prefix {St P : Type} (step : St → P → M A St)
    (s1 s2 : list P) :
  ∀ x X, outcome (chain step x (s1 ++ s2)) = Ok X →
  outcome (chain step x s1) = Ok (take (length s1) X).
Proof.
  induction s1 as [|th s1 IH]; intros x X; simpl app; simpl chain.
  { intros _. by rewrite take_0. }
  intros Hout.
  apply outcome_bind_Ok in Hout as (x1 & Hstep & Hout).
  apply outcome_bind_Ok in Hout as (X' & Hrest & Hout).
  rewrite outcome_ret in Hout. injection Hout as <-.
  rewrite outcome_bind, Hstep, outcome_bind, (IH _ _ Hrest).
  by rewrite outcome_ret.
Qed.

Lemma kth_slice_take (seqs : list (list A)) (n k : nat) :
  k < n → kth_slice (take n <$> seqs) k = kth_slice seqs k.
Proof.
  intros Hk. unfold kth_slice. induction seqs as [|l seqs IH]; [done|].
  csimpl. by rewrite IH, lookup_take_lt.
Qed.

(** X5.  The states of a time-varying run depend only on the parameter
    values of the steps taken so far: shortening the horizon by one and
    dropping the last value of every parameter sequence gives the same
    trajectory without its last state. *)
Theorem run_time_varying_prefix T (x0 : list A) (seqs : list (list A))
    traj :
  (1 ≤ T)%Z →
  seqs ≠ [] →
  Forall (λ l, Z.of_nat (length l) = T) seqs →
  outcome (run (T + 1) x0 (Vec <$> seqs)) = Ok traj →
  outcome (run T x0 (Vec <$> (take (Z.to_nat (T - 1)) <$> seqs)))
  = Ok (take (Z.to_nat T) traj).
Proof.
  intros HT Hne Hlen.
  assert (∀ ss : list (list A), ss ≠ [] →
            Exists (λ a : param A, ndim a ≠ 0) (Vec <$> ss)) as Hex.
  { intros [|l ss]; [done|]. intros _. by left. }
  rewrite !run_time_varying_path by (apply Hex; by destruct seqs).
  rewrite !run_time_varying_manual; [|lia| |lia|].
  - unfold manual_chain. rewrite <- !list_fmap_compose.
    change (per_step (T + 1) ∘ Vec) with (λ l : list A, l).
    change (per_step T ∘ Vec ∘ take (Z.to_nat (T - 1)))
      with (take (A:=A) (Z.to_nat (T - 1))).
    rewrite list_fmap_id.
    replace (Z.to_nat (T + 1 - 1)) with (S (Z.to_nat (T - 1))) by lia.
    rewrite seq_S, fmap_app. simpl plus. intros Hout.
    apply outcome_bind_Ok in Hout as (X & HX & Hout).
    rewrite outcome_ret in Hout. injection Hout as <-.
    apply chain_prefix in HX. rewrite length_fmap, length_seq in HX.
    rewrite outcome_bind.
    rewrite (list_fmap_ext
               (kth_slice (take (Z.to_nat (T - 1)) <$> seqs))
               (kth_slice seqs)).
    + rewrite HX, outcome_ret.
      replace (Z.to_nat T) with (S (Z.to_nat (T - 1))) by lia. done.
    + intros i k Hk. apply lookup_seq in Hk as [-> Hk].
      by apply kth_slice_take.
  - apply Forall_fmap, Forall_fmap. eapply Forall_impl; [done|].
    intros l Hl. simpl in *. rewrite length_take_le by lia. lia.
  - apply Forall_fmap. eapply Forall_impl; [done|].
    intros l Hl. simpl in *. lia.
Qed.
End Causality.

(** ** More on batch runs *)

Section BatchMore.
Context {A : Type} `{Numeric A} `{Integrator A} `{DxDt A}.

Lemma kth_slice_replicate (l : list A) (n k : nat) :
  k < n → kth_slice (replicate n <$> l) k = l.
Proof.
  intros Hk. unfold kth_slice. induction l as [|v l IH]; [done|].
  csimpl. rewrite lookup_replicate_2 by done. csimpl. by rewrite IH.
Qed.

(** X6.  A parameter that is constant per instance (shape
    [(batch_sz,)]) gives the same batch run as the time-varying parameter
    (shape [(batch_sz, T-1)]) that repeats each instance's value at every
    step. *)
Theorem run_batch_constant_as_matrix T (x0 : list (list A))
    (theta : list (bparam A)) :
  (1 ≤ T)%Z →
  Forall (valid_batch_entry T (length x0)) theta →
  run_batch T x0 theta = run_batch T x0 (as_matrix T <$> theta).
Proof.
  intros HT Hvalid. rewrite !run_batch_manual; [|done| |done..].
  - unfold manual_batch_chain. f_equal. f_equal.
    apply list_fmap_ext. intros i k Hk.
    apply lookup_seq in Hk as [-> Hk]. simpl in Hk.
    rewrite <- list_fmap_compose. apply list_fmap_ext.
    intros j [l|c m] _; [|done]. simpl.
    by rewrite kth_slice_replicate.
  - apply Forall_fmap. eapply Forall_impl; [done|].
    intros [l|c m] Ha; [|done]. simpl in *.
    rewrite length_fmap. split; [done|]. split; [lia|].
    apply Forall_fmap, Forall_forall. intros v _. simpl.
    by rewrite length_replicate.
Qed.
End BatchMore.

(** ** More on the concrete models *)

Section ModelsMore.
Open Scope R_scope.


(** X8.  SEIR threshold: with positive incubation and recovery rates and
    a non-negative transmission rate, the growth rate is positive exactly
    when [R0 > 1]. *)
Theorem SEIR_growth_rate_threshold (beta sigma gamma r0 g : R) :
  0 < sigma → 0 < gamma → 0 <= beta →
  SEIRModel.R0 [beta; sigma; gamma] = Ok r0 →
  SEIRModel.growth_rate [beta; sigma; gamma] = Ok g →
  (0 < g ↔ 1 < r0).
Proof.
  intros Hsigma Hgamma Hbeta [= <-] [= <-].
  assert (beta / gamma * gamma = beta) as Hq by (field; lra).
  set (q := beta / gamma) in *.
  assert ((sigma - gamma) ^ 2 = (sigma - gamma) * (sigma - gamma))
    as Hpow by ring.
  assert (0 <= (sigma - gamma) ^ 2 + 4 * sigma * beta) as Hdisc.
  { pose proof (pow2_ge_0 (sigma - gamma)).
    assert (0 <= sigma * beta) by (apply Rmult_le_pos; lra). lra. }
  pose proof (sqrt_sqrt _ Hdisc) as Hsq.
  pose proof (sqrt_pos ((sigma - gamma) ^ 2 + 4 * sigma * beta)) as Hpos.
  set (s := sqrt _) in *.
  split; intros Hlt.
  - assert (sigma + gamma < s) as Hs by lra.
    assert (gamma < beta) by nra. nra.
  - assert (gamma < beta) as Hb by nra.
    assert (sigma + gamma < s) by nra. lra.
Qed.
End ModelsMore.

(** ** More sample runs *)

Section SamplesMore.
Import Euler.
Local Open Scope Z_scope.

Lemma decay_length (y : list Z) (s : Z) (a dy : list Z) :
  decay_dx_dt y s a = Ok dy → length dy = length y.
Proof. intros [= <-]. by rewrite length_fmap. Qed.

Lemma odeint_batch_unflatten_sample :
  ∃ out,
    outcome (build_odeint_batch si_dx_dt [[5; 1]; [7; 2]] [0; 1]
               [[1; 1]; [0; 1]]) = Ok out ∧
    length out = 2%nat ∧
    ∀ i k row, (i < 2)%nat →
      [[5; 1; 7; 2]; [0; 6; -7; 14]] !! k = Some row →
      ∃ traj, out !! i = Some traj ∧ traj !! k = Some (block 2 i row).
Proof.
  apply (odeint_batch_unflatten si_dx_dt [[5; 1]; [7; 2]] [0; 1]
           [[1; 1]; [0; 1]] [[5; 1; 7; 2]; [0; 6; -7; 14]] 2%nat 2%nat).
  - lia.
  - reflexivity.
  - repeat constructor.
  - reflexivity.
  - reflexivity.
  - repeat constructor.
Defined.

Lemma dx_dt_batch_rejects_sample :
  dx_dt_batch si_dx_dt [5; 1; 7] 0 [[1; 1]; [0; 1]] = Err ShapeError ∧
  ∃ e, dx_dt_batch si_dx_dt [5; 1; 7; 2] 0 [[1; 1]; [0; 1; 2]] = Err e.
Proof.
  destruct (dx_dt_batch_rejects si_dx_dt [5; 1; 7] 0) as (_ & _ & Hmod & _).
  destruct (dx_dt_batch_rejects si_dx_dt [5; 1; 7; 2] 0)
    as (_ & _ & _ & Hlen).
  split.
  - apply Hmod. simpl. lia.
  - apply Hlen. left. simpl. lia.
Defined.

Lemma dx_dt_batch_independent_sample :
  block 2 0 [-5; -1; -14; -4] = block 2 0 [-5; -1; -45; -45].
Proof.
  apply (dx_dt_batch_independent decay_dx_dt
           [[5; 1]; [7; 2]] [[5; 1]; [9; 9]] 0
           [[1; 1]; [0; 1]] [[1; 3]; [0; 2]] 2%nat 2%nat 0%nat).
  - lia.
  - reflexivity.
  - reflexivity.
  - repeat constructor.
  - repeat constructor.
  - discriminate.
  - discriminate.
  - repeat constructor.
  - repeat constructor.
  - exact decay_length.
  - reflexivity.
  - reflexivity.
  - lia.
  - reflexivity.
  - reflexivity.
Defined.


Lemma run_time_varying_prefix_sample :
  1 ≤ 2 ∧
  [[1; 1]; [0; 1]] ≠ [] ∧
  Forall (λ l : list Z, Z.of_nat (length l) = 2) [[1; 1]; [0; 1]] ∧
  outcome (run 2 [5; 1]
             (Vec <$> (take (Z.to_nat (2 - 1)) <$> [[1; 1]; [0; 1]])))
  = Ok (take (Z.to_nat 2) [[5; 1]; [0; 6]; [0; 0]]).
Proof.
  assert (1 ≤ 2) as HT by lia.
  assert ([[1; 1]; [0; 1]] ≠ []) as Hne by discriminate.
  assert (Forall (λ l : list Z, Z.of_nat (length l) = 2)
            [[1; 1]; [0; 1]]) as Hlen by (repeat constructor).
  repeat (split; [assumption|]).
  apply (run_time_varying_prefix 2 [5; 1] _ _ HT Hne Hlen). reflexivity.
Defined.

Lemma run_batch_constant_as_matrix_sample :
  1 ≤ 3 ∧
  Forall (valid_batch_entry 3 (length [[5; 1]; [7; 2]]))
    [BVec [1; 1]; BMat 2 [[0; 1]; [1; 0]]] ∧
  run_batch 3 [[5; 1]; [7; 2]] [BVec [1; 1]; BMat 2 [[0; 1]; [1; 0]]]
  = run_batch 3 [[5; 1]; [7; 2]]
      [BMat 2 [[1; 1]; [1; 1]]; BMat 2 [[0; 1]; [1; 0]]].
Proof.
  assert (1 ≤ 3) as HT by lia.
  assert (Forall (valid_batch_entry 3 (length [[5; 1]; [7; 2]]))
            [BVec [1; 1]; BMat 2 [[0; 1]; [1; 0]]]) as Hvalid
    by (repeat constructor).
  repeat (split; [assumption|]).
  exact (run_batch_constant_as_matrix 3 [[5; 1]; [7; 2]] _ HT Hvalid).
Defined.
End SamplesMore.

Section ModelSamplesMore.
Open Scope R_scope.


Lemma SEIR_growth_rate_threshold_sample :
  0 < 0.2 ∧ 0 < 0.1 ∧ 0 <= 0.5 ∧
  ∃ r0 g, SEIRModel.R0 [0.5; 0.2; 0.1] = Ok r0 ∧
          SEIRModel.growth_rate [0.5; 0.2; 0.1] = Ok g ∧
          (0 < g ↔ 1 < r0).
Proof.
  assert (0 < 0.2) as Hsigma by lra.
  assert (0 < 0.1) as Hgamma by lra.
  assert (0 <= 0.5) as Hbeta by lra.
  repeat (split; [assumption|]). do 2 eexists.
  split; [reflexivity|]. split; [reflexivity|].
  exact (SEIR_growth_rate_threshold 0.5 0.2 0.1 _ _
           Hsigma Hgamma Hbeta eq_refl eq_refl).
Defined.
End ModelSamplesMore.
